(** * strong_scope_guard: a shallow embedding of [src/src/lib.rs],
    [src/src/private.rs] and the DMA example of [src/examples/example.rs].

    Observable effects are modelled by a log ([list nat]): running a closure
    appends its identifier to the log.  A closure may also unwind (panic).
    Rust's unwinding is modelled explicitly: a panic while a value is being
    dropped during an unwind aborts the process. *)

From Stdlib Require Import List Arith Lia.
Import ListNotations.

#[local] Set Warnings "-register-all".

(** ** Closures and scope-end handlers ([lib.rs], lines 10-55) *)

(** A closure [F: FnOnce()]: calling it performs one visible effect (its
    identifier is appended to the log) and, if [cpanics], then unwinds. *)
Record closure := mkClosure { cid : nat; cpanics : bool }.

(** Values of the types implementing [ScopeEndHandler]: [Option<F>] and the
    tuples of handlers (the source implements arities 0 to 6). *)
Inductive Handler : Type :=
| HOpt (o : option closure)
| HTup (hs : list Handler).

(** The handler types themselves, needed for [H::none()]. *)
Inductive HandlerTy : Type :=
| TOpt
| TTup (ts : list HandlerTy).

(** Outcome of a unit-returning Rust call: it returns or it unwinds. *)
Inductive res := ROk | RPanic.

(** [ScopeEndHandler::none]. *)
Fixpoint none (t : HandlerTy) : Handler :=
  match t with
  | TOpt => HOpt None
  | TTup ts => HTup (map none ts)
  end.

(** Calling a closure [f()]. *)
Definition call_closure (f : closure) (log : list nat) : res * list nat :=
  (if cpanics f then RPanic else ROk, log ++ [cid f]).

(** [ScopeEndHandler::call].  For [Option<F>]: [if let Some(f) = self { f() }].
    For tuples: [let (H1, ..., Hn) = self; H1.call(); ...; Hn.call();]; an
    unwinding element propagates, and the remaining elements are dropped
    (dropping an [Option<F>] does not run [F]). *)
Fixpoint call (h : Handler) (log : list nat) : res * list nat :=
  match h with
  | HOpt None => (ROk, log)
  | HOpt (Some f) => call_closure f log
  | HTup hs =>
      (fix call_elems (hs : list Handler) (log : list nat) : res * list nat :=
         match hs with
         | [] => (ROk, log)
         | h1 :: hs' =>
             match call h1 log with
             | (ROk, log') => call_elems hs' log'
             | (RPanic, log') => (RPanic, log')
             end
         end) hs log
  end.

(** ** Guards ([lib.rs], lines 57-135, and [private.rs], lines 4-12) *)

(** [LocalScopeGuard<'scope, H>]: the phantom [scope] marker carries no data;
    [lsg_ty] records the type [H] so that [H::none()] can be computed. *)
Record LocalScopeGuard := mkLocal { lsg_ty : HandlerTy; handler : Handler }.

(** [StaticScopeGuard<H>]: only a [PhantomData<H>]. *)
Record StaticScopeGuard := mkStatic { ssg_ty : HandlerTy }.

(** [private::ScopeGuardPriv]: [new] takes the handler type explicitly
    (Rust infers it); [priv_call] returns the mutated guard ([&mut self]),
    whether the call returned or unwound, and the call's outcome. *)
Class ScopeGuardPriv (G : Type) := {
  priv_new : HandlerTy -> G;
  priv_call : G -> list nat -> G * res * list nat
}.

(** [ScopeGuard]: [handler_mut] returns [Option<&mut Self::Handler>], a
    mutable borrow being the current value with a way to write it back. *)
Class ScopeGuard (G : Type) `{ScopeGuardPriv G} := {
  handler_mut : G -> option (Handler * (Handler -> G))
}.

(** [ScopeGuard::set_handler]: [if let Some(h) = self.handler_mut() { *h = handler }].
    The old handler is dropped, which does not run it. *)
Definition set_handler {G} `{ScopeGuard G} (g : G) (h : Handler) : G :=
  match handler_mut g with
  | Some (_, put) => put h
  | None => g
  end.

(** [ScopeGuardPriv::call] for [LocalScopeGuard]:
    [mem::replace(&mut self.handler, H::none()).call()]; the slot is emptied
    before the old handler runs. *)
Definition local_call (g : LocalScopeGuard) (log : list nat)
  : LocalScopeGuard * res * list nat :=
  let '(r, log') := call (handler g) log in
  (mkLocal (lsg_ty g) (none (lsg_ty g)), r, log').
Arguments local_call : simpl never.

#[global] Instance LocalScopeGuard_priv : ScopeGuardPriv LocalScopeGuard := {
  priv_new t := mkLocal t (none t);
  priv_call := local_call
}.

#[global] Instance LocalScopeGuard_guard : ScopeGuard LocalScopeGuard := {
  handler_mut g := Some (handler g, fun h => mkLocal (lsg_ty g) h)
}.

#[global] Instance StaticScopeGuard_priv : ScopeGuardPriv StaticScopeGuard := {
  priv_new t := mkStatic t;
  priv_call g log := (g, ROk, log)
}.

#[global] Instance StaticScopeGuard_guard : ScopeGuard StaticScopeGuard := {
  handler_mut _ := None
}.

(** ** Guard collections ([private.rs], lines 14-104) *)

(** Values of the types implementing [LocalScopeGuards]: a single
    [LocalScopeGuard], and tuples and arrays of collections.  Tuples and
    arrays behave alike (their [new] builds the elements in order and their
    [call_all] visits them in order), so both are [GTuple]. *)
Inductive Guards : Type :=
| GGuard (g : LocalScopeGuard)
| GTuple (gs : list Guards).

Inductive GuardsTy : Type :=
| TGuard (t : HandlerTy)
| TTuple (ts : list GuardsTy).

(** [[T; n]] for [n] from 0 to 6. *)
Definition TArray (n : nat) (t : GuardsTy) : GuardsTy := TTuple (repeat t n).

(** [LocalScopeGuards::new]. *)
Fixpoint new (t : GuardsTy) : Guards :=
  match t with
  | TGuard h => GGuard (priv_new h)
  | TTuple ts => GTuple (map new ts)
  end.

(** [LocalScopeGuards::call_all]: for a guard, [self.call()]; for a tuple,
    [$($elem.call_all();)*], and for an array [for elem in self { elem.call_all() }].
    An unwinding child stops the sweep; the collection is left as mutated so far. *)
Fixpoint call_all (g : Guards) (log : list nat) : Guards * res * list nat :=
  match g with
  | GGuard lg =>
      let '(lg', r, log') := priv_call lg log in (GGuard lg', r, log')
  | GTuple gs =>
      let '(gs', r, log') :=
        (fix call_elems (gs : list Guards) (log : list nat)
           : list Guards * res * list nat :=
           match gs with
           | [] => ([], ROk, log)
           | g1 :: gs1 =>
               match call_all g1 log with
               | (g1', ROk, log1) =>
                   let '(gs1', r, log2) := call_elems gs1 log1 in
                   (g1' :: gs1', r, log2)
               | (g1', RPanic, log1) => (g1' :: gs1, RPanic, log1)
               end
           end) gs log in
      (GTuple gs', r, log')
  end.

(** Unwinding state of the current thread while values are dropped. *)
Inductive unwind := Normal | Panicking | Aborted.

(** A call made from a destructor: unwinding out of it starts a panic, or
    aborts the process if the thread is already panicking. *)
Definition after_drop_call (r : res) (st : unwind) : unwind :=
  match r, st with
  | ROk, _ => st
  | RPanic, Normal => Panicking
  | RPanic, _ => Aborted
  end.

(** Drop glue of a collection: [Drop for LocalScopeGuard] runs
    [ScopeGuardPriv::call(self)]; tuple fields and array elements are dropped
    in order, and the remaining ones are still dropped when one unwinds.
    Nothing runs once the process has aborted. *)
Fixpoint drop (g : Guards) (st : unwind) (log : list nat) : unwind * list nat :=
  match st with
  | Aborted => (Aborted, log)
  | _ =>
      match g with
      | GGuard lg =>
          let '(_, r, log') := priv_call lg log in (after_drop_call r st, log')
      | GTuple gs =>
          (fix drop_elems (gs : list Guards) (st : unwind) (log : list nat)
             : unwind * list nat :=
             match gs with
             | [] => (st, log)
             | g1 :: gs1 =>
                 let '(st1, log1) := drop g1 st log in drop_elems gs1 st1 log1
             end) gs st log
      end
  end.

(** ** The scope driver ([lib.rs], lines 195-204) *)

(** What the body [B: FnOnce(G) -> (G, O)] does with the guards it is given:
    it returns a collection and its result, or it unwinds while still owning
    the collections in [live], which its frame drops in that order (the order
    of the body's locals). *)
Inductive BodyResult (O : Type) : Type :=
| BReturn (g : Guards) (out : O) (log : list nat)
| BUnwind (live : list Guards) (log : list nat).
Arguments BReturn {O}.
Arguments BUnwind {O}.

(** How a call to [scope] ends: it returns, unwinds past its caller's frame,
    or the process aborts. *)
Inductive ScopeResult (O : Type) : Type :=
| SReturn (out : O) (log : list nat)
| SUnwind (log : list nat)
| SAbort (log : list nat).
Arguments SReturn {O}.
Arguments SUnwind {O}.
Arguments SAbort {O}.

Definition unwind_result {O} (st : unwind) (log : list nat) : ScopeResult O :=
  match st with
  | Aborted => SAbort log
  | _ => SUnwind log
  end.

(** [scope(body)]:
    [let guards = G::new(); let (mut guards, out) = body(guards); guards.call_all(); out].
    After [call_all], [guards] is dropped at the end of the function, or
    during the unwind if [call_all] unwound. *)
Definition scope {O} (t : GuardsTy) (body : Guards -> list nat -> BodyResult O)
  (log : list nat) : ScopeResult O :=
  let guards := new t in
  match body guards log with
  | BReturn guards' out log1 =>
      let '(guards'', r, log2) := call_all guards' log1 in
      match r with
      | ROk =>
          match drop guards'' Normal log2 with
          | (Normal, log3) => SReturn out log3
          | (st, log3) => unwind_result st log3
          end
      | RPanic =>
          let '(st, log3) := drop guards'' Panicking log2 in unwind_result st log3
      end
  | BUnwind live log1 =>
      let '(st, log2) := drop (GTuple live) Panicking log1 in unwind_result st log2
  end.

(** ** Observations used by the statements *)

(** The guards of a collection, in positional order. *)
Fixpoint leaves (g : Guards) : list LocalScopeGuard :=
  match g with
  | GGuard lg => [lg]
  | GTuple gs => flat_map leaves gs
  end.

(** A guard after [ScopeGuardPriv::call]: its slot holds [H::none()]. *)
Definition reset (lg : LocalScopeGuard) : LocalScopeGuard :=
  mkLocal (lsg_ty lg) (none (lsg_ty lg)).

(** A handler whose call returns rather than unwinds. *)
Definition nonpanicking (h : Handler) : Prop := fst (call h []) = ROk.

(** Reference behaviour stated by the spec: every handler of [hs] is invoked
    once, in order, whatever the earlier invocations did. *)
Definition invoke_each_once (hs : list Handler) (log : list nat) : list nat :=
  fold_left (fun l h => snd (call h l)) hs log.

(** The final handlers of a body: those held by the guards it returns, or by
    the guards it still owns when it unwinds. *)
Definition final_guards {O} (b : BodyResult O) : list LocalScopeGuard :=
  match b with
  | BReturn g _ _ => leaves g
  | BUnwind live _ => flat_map leaves live
  end.

Definition body_log {O} (b : BodyResult O) : list nat :=
  match b with
  | BReturn _ _ l => l
  | BUnwind _ l => l
  end.

Definition scope_log {O} (r : ScopeResult O) : list nat :=
  match r with
  | SReturn _ l => l
  | SUnwind l => l
  | SAbort l => l
  end.

(** [call_all] and [drop] on the positional list of guards. *)
Fixpoint call_all_list (ls : list LocalScopeGuard) (log : list nat)
  : list LocalScopeGuard * res * list nat :=
  match ls with
  | [] => ([], ROk, log)
  | lg :: ls1 =>
      let '(lg', r, log1) := priv_call lg log in
      match r with
      | ROk => let '(ls1', r', log2) := call_all_list ls1 log1 in (lg' :: ls1', r', log2)
      | RPanic => (lg' :: ls1, RPanic, log1)
      end
  end.

Fixpoint drop_list (ls : list LocalScopeGuard) (st : unwind) (log : list nat)
  : unwind * list nat :=
  match st with
  | Aborted => (Aborted, log)
  | _ =>
      match ls with
      | [] => (st, log)
      | lg :: ls1 =>
          let '(_, r, log1) := priv_call lg log in
          drop_list ls1 (after_drop_call r st) log1
      end
  end.

(** ** Concrete bodies *)

(** Closures appending "A", "B" (identifiers 1 and 2), and one that appends
    its identifier 3 and then panics. *)
Definition log_A : closure := mkClosure 1 false.
Definition log_B : closure := mkClosure 2 false.
Definition fail_C : closure := mkClosure 3 true.

(** Two guards of type [LocalScopeGuard<Option<F>>], as [scope] builds them
    for a body taking [(g1, g2)]. *)
Definition two_guards : GuardsTy := TTuple [TGuard TOpt; TGuard TOpt].

(** [|(mut a, mut b)| { a.set_handler(Some(A)); b.set_handler(Some(B)); ((a, b), ()) }].
    A body only ever receives the collection built by [new], so the other
    branch of the match is unreachable. *)
Definition body_A_then_B (g : Guards) (log : list nat) : BodyResult unit :=
  match g with
  | GTuple [GGuard a; GGuard b] =>
      let a := set_handler a (HOpt (Some log_A)) in
      let b := set_handler b (HOpt (Some log_B)) in
      BReturn (GTuple [GGuard a; GGuard b]) tt log
  | _ => BReturn g tt log
  end.

(** The same with [b] assigned before [a]. *)
Definition body_B_then_A (g : Guards) (log : list nat) : BodyResult unit :=
  match g with
  | GTuple [GGuard a; GGuard b] =>
      let b := set_handler b (HOpt (Some log_B)) in
      let a := set_handler a (HOpt (Some log_A)) in
      BReturn (GTuple [GGuard a; GGuard b]) tt log
  | _ => BReturn g tt log
  end.

(** [|(mut a, mut b)| { a.set_handler(Some(A)); b.set_handler(Some(B)); ((b, a), ()) }]:
    the two guards have the same type, so the body may return them swapped. *)
Definition body_swap (g : Guards) (log : list nat) : BodyResult unit :=
  match g with
  | GTuple [GGuard a; GGuard b] =>
      let a := set_handler a (HOpt (Some log_A)) in
      let b := set_handler b (HOpt (Some log_B)) in
      BReturn (GTuple [GGuard b; GGuard a]) tt log
  | _ => BReturn g tt log
  end.

(** [|mut g| { g.set_handler(Some(A)); g.set_handler(Some(B)); (g, ()) }]. *)
Definition body_reassign (g : Guards) (log : list nat) : BodyResult unit :=
  match g with
  | GGuard a =>
      let a := set_handler a (HOpt (Some log_A)) in
      let a := set_handler a (HOpt (Some log_B)) in
      BReturn (GGuard a) tt log
  | _ => BReturn g tt log
  end.

(** [|mut g| { g.set_handler(Some(A)); panic!() }]: the body's frame drops [g]. *)
Definition body_set_then_panic (g : Guards) (log : list nat) : BodyResult unit :=
  match g with
  | GGuard a => BUnwind [GGuard (set_handler a (HOpt (Some log_A)))] log
  | _ => BUnwind [g] log
  end.

(** Three guards whose handlers are [fail_C], [A] and [B]. *)
Definition three_guards : GuardsTy := TTuple [TGuard TOpt; TGuard TOpt; TGuard TOpt].

Definition body_first_fails (g : Guards) (log : list nat) : BodyResult unit :=
  match g with
  | GTuple [GGuard a; GGuard b; GGuard c] =>
      BReturn (GTuple [GGuard (set_handler a (HOpt (Some fail_C)));
                       GGuard (set_handler b (HOpt (Some log_A)));
                       GGuard (set_handler c (HOpt (Some log_B)))]) tt log
  | _ => BReturn g tt log
  end.

(** ** The DMA example ([src/examples/example.rs], lines 5-59) *)

(** [struct Off {}]. *)
Inductive Off := MkOff.

(** [struct Running<'data, G> { data: &'data mut [u8], guard: G }]. *)
Record Running (G : Type) := mkRunning { data : list nat; guard : G }.
Arguments mkRunning {G}.
Arguments data {G}.
Arguments guard {G}.

(** [struct Dma<S> { state: S }]. *)
Record Dma (S : Type) := mkDma { state : S }.
Arguments mkDma {S}.
Arguments state {S}.

(** The closure [|| println!("stop DMA")]; identifier 0 stands for its output. *)
Definition stop_dma : closure := mkClosure 0 false.

(** [Dma::<Off>::start]: [*guard.handler_mut() = Some(|| println!("stop DMA"))].
    As written the assignment does not type-check ([handler_mut] returns an
    [Option<&mut Handler>]); it is read as the write through that slot, i.e.
    [set_handler]. *)
Definition start {G} `{ScopeGuard G} (d : Dma Off) (data : list nat) (guard : G)
  : Dma (Running G) :=
  mkDma (mkRunning data (set_handler guard (HOpt (Some stop_dma)))).

(** [Dma::<Running>::stop]: under the comment "Clear guard." it executes
    [*guard.handler_mut() = Some(|| println!("stop DMA"))], read as above. *)
Definition stop {G} `{ScopeGuard G} (d : Dma (Running G)) : Dma Off * list nat * G :=
  let r := state d in
  (mkDma MkOff, data r, set_handler (guard r) (HOpt (Some stop_dma))).

(** The body of [usage1]:
    [|(g1, g2)| { let dma = dma.start(&mut data, g1); let (dma, data, g1) = dma.stop();
                  println!("{}", data[0]); ((g1, g2), dma) }]
    (the [println!] of [data[0]] is not recorded in the log). *)
Definition usage1_body (dma : Dma Off) (g : Guards) (log : list nat) : BodyResult (Dma Off) :=
  match g with
  | GTuple [GGuard g1; GGuard g2] =>
      let dma := start dma [1; 2; 3] g1 in
      let '(dma, _, g1) := stop dma in
      BReturn (GTuple [GGuard g1; GGuard g2]) dma log
  | _ => BReturn g dma log
  end.

(** ** The [scope!] macro ([lib.rs], lines 246-286) *)

(** One step of [@nest_type]: [($type, $crate::LocalScopeGuard<_>)]. *)
Definition nest_step_ty (acc : GuardsTy) (t : HandlerTy) : GuardsTy :=
  TTuple [acc; TGuard t].

(** [scope!(@nest_type (), a1, ..., an)] = [((((), G1), G2), ...), Gn)]; the
    macro's rules need at least one argument, hence [t0]. *)
Definition nest_type (t0 : HandlerTy) (ts : list HandlerTy) : GuardsTy :=
  fold_left nest_step_ty ts (nest_step_ty (TTuple []) t0).

(** One step of [@nest_expr]: [($tup, $arg)]. *)
Definition nest_step (acc : Guards) (lg : LocalScopeGuard) : Guards :=
  GTuple [acc; GGuard lg].

(** [scope!(@nest_expr (), a1, ..., an)]. *)
Definition nest_expr (g0 : LocalScopeGuard) (gs : list LocalScopeGuard) : Guards :=
  fold_left nest_step gs (nest_step (GTuple []) g0).

(** [scope!(@nest_pat (), a1, ..., an)]: the guards bound by the closure's
    nested pattern, in argument order.  The pattern is irrefutable at the
    closure's type; [None] stands for shapes that type excludes. *)
Fixpoint nest_pat (g : Guards) : option (list LocalScopeGuard) :=
  match g with
  | GTuple [] => Some []
  | GTuple [acc; GGuard lg] => option_map (fun ls => ls ++ [lg]) (nest_pat acc)
  | _ => None
  end.

(** What the user's [$body] does with the guards [a1, ..., an]: it evaluates to
    [((a1', ..., an'), out)], or unwinds owning the collections [live]. *)
Inductive MacroBodyResult (O : Type) : Type :=
| MReturn (g0 : LocalScopeGuard) (gs : list LocalScopeGuard) (out : O) (log : list nat)
| MUnwind (live : list Guards) (log : list nat).
Arguments MReturn {O}.
Arguments MUnwind {O}.

(** [scope!(@closure |(a1, ..., an)| $body)]:
    [|nest_pat: nest_type| { let (a1, ..., an) = (a1, ..., an);
       let ((a1, ..., an), out) = $body; (nest_expr, out) }]. *)
Definition macro_closure {O}
  (body : LocalScopeGuard -> list LocalScopeGuard -> list nat -> MacroBodyResult O)
  (g : Guards) (log : list nat) : BodyResult O :=
  match nest_pat g with
  | Some (g0 :: gs) =>
      match body g0 gs log with
      | MReturn g0' gs' out l => BReturn (nest_expr g0' gs') out l
      | MUnwind live l => BUnwind live l
      end
  | _ => BUnwind [g] log
  end.

(** [scope!(|(a1, ..., an)| $body)] = [$crate::scope(scope!(@closure ...))]. *)
Definition scope_macro {O} (t0 : HandlerTy) (ts : list HandlerTy)
  (body : LocalScopeGuard -> list LocalScopeGuard -> list nat -> MacroBodyResult O)
  (log : list nat) : ScopeResult O :=
  scope (nest_type t0 ts) (macro_closure body) log.

(** The macro example of the documentation, [lib.rs] lines 222-227:
    [scope!(|(a, b)| { a.set_handler(Some(..)); b.set_handler(Some(..)); ((a, b), ()) })]. *)
Definition doc_macro_body (a : LocalScopeGuard) (rest : list LocalScopeGuard)
  (log : list nat) : MacroBodyResult unit :=
  match rest with
  | [b] => MReturn (set_handler a (HOpt (Some log_A))) [set_handler b (HOpt (Some log_B))] tt log
  | _ => MReturn a rest tt log
  end.

(** Induction principles for the nested inductive types. *)
Section Nested_ind.
Variable P : HandlerTy -> Prop.
Hypothesis P_opt : P TOpt.
Hypothesis P_tup : forall ts, Forall P ts -> P (TTup ts).

Fixpoint HandlerTy_ind' (t : HandlerTy) : P t :=
  match t with
  | TOpt => P_opt
  | TTup ts =>
      P_tup ts
        ((fix go (ts : list HandlerTy) : Forall P ts :=
            match ts with
            | [] => Forall_nil P
            | t1 :: ts1 => @Forall_cons _ P t1 ts1 (HandlerTy_ind' t1) (go ts1)
            end) ts)
  end.

Variable Q : Handler -> Prop.
Hypothesis Q_opt : forall o, Q (HOpt o).
Hypothesis Q_tup : forall hs, Forall Q hs -> Q (HTup hs).

Fixpoint Handler_ind' (h : Handler) : Q h :=
  match h with
  | HOpt o => Q_opt o
  | HTup hs =>
      Q_tup hs
        ((fix go (hs : list Handler) : Forall Q hs :=
            match hs with
            | [] => Forall_nil Q
            | h1 :: hs1 => @Forall_cons _ Q h1 hs1 (Handler_ind' h1) (go hs1)
            end) hs)
  end.

Variable R : Guards -> Prop.
Hypothesis R_guard : forall lg, R (GGuard lg).
Hypothesis R_tuple : forall gs, Forall R gs -> R (GTuple gs).

Fixpoint Guards_ind' (g : Guards) : R g :=
  match g with
  | GGuard lg => R_guard lg
  | GTuple gs =>
      R_tuple gs
        ((fix go (gs : list Guards) : Forall R gs :=
            match gs with
            | [] => Forall_nil R
            | g1 :: gs1 => @Forall_cons _ R g1 gs1 (Guards_ind' g1) (go gs1)
            end) gs)
  end.
End Nested_ind.

Lemma call_none : forall t log, call (none t) log = (ROk, log).
Proof.
  induction t as [|ts Hts] using HandlerTy_ind'; intros log; [reflexivity|].
  simpl. revert log. induction Hts as [|t ts Ht Hts IH]; intros log; [reflexivity|].
  simpl. rewrite Ht. apply IH.
Qed.

Lemma call_log : forall h log, call h log = (fst (call h []), log ++ snd (call h [])).
Proof.
  induction h as [[f|]|hs Hhs] using Handler_ind'; intros log.
  - unfold call, call_closure. simpl. reflexivity.
  - simpl. rewrite app_nil_r. reflexivity.
  - simpl. revert log. induction Hhs as [|h hs Hh Hhs IH]; intros log.
    + simpl. rewrite app_nil_r. reflexivity.
    + rewrite (Hh log), (Hh []). simpl.
      destruct (call h []) as [[|] l1]; simpl.
      * rewrite (IH (log ++ l1)), (IH l1). simpl. rewrite app_assoc. reflexivity.
      * reflexivity.
Qed.

Lemma local_call_eq : forall lg log,
  local_call lg log = (reset lg, fst (call (handler lg) log), snd (call (handler lg) log)).
Proof. intros [t h] log. unfold local_call. simpl. destruct (call h log). reflexivity. Qed.

Lemma drop_list_aborted : forall ls log, drop_list ls Aborted log = (Aborted, log).
Proof. destruct ls; reflexivity. Qed.

Lemma drop_list_app : forall l1 l2 st log,
  drop_list (l1 ++ l2) st log =
  let '(st1, log1) := drop_list l1 st log in drop_list l2 st1 log1.
Proof.
  induction l1 as [|lg l1 IH]; intros l2 st log.
  - destruct st; simpl; try reflexivity; rewrite drop_list_aborted; reflexivity.
  - destruct st; simpl; try (rewrite drop_list_aborted; reflexivity);
      rewrite local_call_eq; apply IH.
Qed.

Lemma drop_leaves : forall g st log, drop g st log = drop_list (leaves g) st log.
Proof.
  induction g as [lg|gs Hgs] using Guards_ind'; intros st log.
  - destruct st; simpl; try reflexivity; rewrite local_call_eq; simpl;
      destruct (fst (call (handler lg) log)); reflexivity.
  - destruct st as [| |]; simpl; try (rewrite drop_list_aborted; reflexivity);
    match goal with |- _ = drop_list _ ?s _ => generalize s end; intros st;
    revert st log; induction Hgs as [|g gs Hg Hgs IH]; intros st log;
      try (destruct st; reflexivity);
      simpl; rewrite drop_list_app, Hg; destruct (drop_list (leaves g) st log); apply IH.
Qed.

Lemma call_all_list_app : forall l1 l2 log,
  call_all_list (l1 ++ l2) log =
  match call_all_list l1 log with
  | (l1', ROk, log1) => let '(l2', r, log2) := call_all_list l2 log1 in (l1' ++ l2', r, log2)
  | (l1', RPanic, log1) => (l1' ++ l2, RPanic, log1)
  end.
Proof.
  induction l1 as [|lg l1 IH]; intros l2 log.
  - simpl. destruct (call_all_list l2 log) as [[? ?] ?]. reflexivity.
  - simpl. rewrite local_call_eq. destruct (fst (call (handler lg) log)).
    + rewrite IH. destruct (call_all_list l1 _) as [[l1' [|]] log1]; simpl.
      * destruct (call_all_list l2 log1) as [[? ?] ?]. reflexivity.
      * reflexivity.
    + reflexivity.
Qed.

Lemma call_all_leaves : forall g log,
  match call_all g log with
  | (g', r, log') => call_all_list (leaves g) log = (leaves g', r, log')
  end.
Proof.
  induction g as [lg|gs Hgs] using Guards_ind'; intros log.
  - simpl. rewrite local_call_eq. destruct (fst (call (handler lg) log)); reflexivity.
  - simpl. revert log. induction Hgs as [|g gs Hg Hgs IH]; intros log; [reflexivity|].
    simpl. rewrite call_all_list_app. specialize (Hg log).
    destruct (call_all g log) as [[g' [|]] log1]; rewrite Hg.
    + specialize (IH log1).
      destruct ((fix call_elems (gs : list Guards) (log : list nat)
                   : list Guards * res * list nat :=
                   match gs with
                   | [] => ([], ROk, log)
                   | g1 :: gs1 =>
                       match call_all g1 log with
                       | (g1', ROk, log1) =>
                           let '(gs1', r, log2) := call_elems gs1 log1 in
                           (g1' :: gs1', r, log2)
                       | (g1', RPanic, log1) => (g1' :: gs1, RPanic, log1)
                       end
                   end) gs log1) as [[gs' r] log2].
      simpl in IH. rewrite IH. reflexivity.
    + reflexivity.
Qed.

Lemma call_res : forall h log, fst (call h log) = fst (call h []).
Proof. intros h log. rewrite call_log. reflexivity. Qed.

Lemma invoke_each_once_cons : forall h hs log,
  invoke_each_once (h :: hs) log = invoke_each_once hs (snd (call h log)).
Proof. reflexivity. Qed.

Lemma invoke_each_once_app : forall hs1 hs2 log,
  invoke_each_once (hs1 ++ hs2) log = invoke_each_once hs2 (invoke_each_once hs1 log).
Proof. intros. unfold invoke_each_once. apply fold_left_app. Qed.

Lemma invoke_each_once_resets : forall ls log,
  invoke_each_once (map handler (map reset ls)) log = log.
Proof.
  induction ls as [|lg ls IH]; intros log; [reflexivity|].
  unfold invoke_each_once. simpl. rewrite call_none. apply IH.
Qed.

Lemma nonpanicking_resets : forall ls, Forall nonpanicking (map handler (map reset ls)).
Proof.
  induction ls as [|lg ls IH]; constructor; [|exact IH].
  unfold nonpanicking. simpl. rewrite call_none. reflexivity.
Qed.

Lemma call_all_list_ok : forall ls log,
  match call_all_list ls log with
  | (ls', ROk, log') => ls' = map reset ls /\ log' = invoke_each_once (map handler ls) log /\
      Forall nonpanicking (map handler ls)
  | (ls', RPanic, log') =>
      exists pre lg post, ls = pre ++ lg :: post /\
        Forall nonpanicking (map handler pre) /\ fst (call (handler lg) []) = RPanic /\
        ls' = map reset pre ++ reset lg :: post /\
        log' = invoke_each_once (map handler (pre ++ [lg])) log
  end.
Proof.
  induction ls as [|lg ls IH]; intros log; [simpl; auto|].
  simpl. rewrite local_call_eq, call_res.
  destruct (fst (call (handler lg) [])) eqn:E.
  - specialize (IH (snd (call (handler lg) log))).
    destruct (call_all_list ls _) as [[ls' [|]] log'].
    + destruct IH as (-> & -> & Hnp). repeat split. constructor; assumption.
    + destruct IH as (pre & lg0 & post & -> & Hpre & Hlg0 & -> & ->).
      exists (lg :: pre), lg0, post. repeat split; auto.
      constructor; assumption.
  - exists [], lg, ls. repeat split; auto.
Qed.

Lemma drop_list_ok : forall ls st log, st <> Aborted ->
  match drop_list ls st log with
  | (Aborted, _) => True
  | (_, log') => log' = invoke_each_once (map handler ls) log
  end.
Proof.
  induction ls as [|lg ls IH]; intros st log Hst.
  - destruct st; [reflexivity|reflexivity|congruence].
  - destruct st; [| |congruence]; simpl; rewrite local_call_eq; simpl;
      (destruct (after_drop_call _ _) eqn:E;
       [exact (IH Normal _ ltac:(discriminate)) | exact (IH Panicking _ ltac:(discriminate))
       | rewrite drop_list_aborted; exact I]).
Qed.

Lemma drop_list_nonpanicking : forall ls st log, st <> Aborted ->
  Forall nonpanicking (map handler ls) ->
  drop_list ls st log = (st, invoke_each_once (map handler ls) log).
Proof.
  induction ls as [|lg ls IH]; intros st log Hst Hnp.
  - destruct st; [reflexivity|reflexivity|congruence].
  - inversion Hnp as [|? ? Hlg Hls]; subst. unfold nonpanicking in Hlg.
    destruct st; [| |congruence]; simpl; rewrite local_call_eq; simpl;
      rewrite call_res, Hlg; simpl; apply IH; auto; discriminate.
Qed.

Lemma drop_list_resets : forall ls st log, st <> Aborted ->
  drop_list (map reset ls) st log = (st, log).
Proof.
  intros ls st log Hst. rewrite drop_list_nonpanicking by (auto using nonpanicking_resets).
  rewrite invoke_each_once_resets. reflexivity.
Qed.

(** Unless the process aborts, a [scope] call logs what the body logged, then
    one invocation of each handler its guards hold when the body ends. *)
Lemma scope_log_eq :
  forall O t (body : Guards -> list nat -> BodyResult O) log0,
  (forall l, scope t body log0 <> SAbort l) ->
  scope_log (scope t body log0) =
  invoke_each_once (map handler (final_guards (body (new t) log0)))
    (body_log (body (new t) log0)).
Proof.
  intros O t body log0 Hna. unfold scope in *.
  destruct (body (new t) log0) as [g out l1|live l1]; simpl in *.
  - pose proof (call_all_leaves g l1) as Hc.
    destruct (call_all g l1) as [[g' r] l2].
    pose proof (call_all_list_ok (leaves g) l1) as Hok. rewrite Hc in Hok.
    destruct r.
    + destruct Hok as (Hl' & Hlog & _).
      rewrite drop_leaves, Hl', drop_list_resets by discriminate. exact Hlog.
    + destruct Hok as (pre & lg & post & Hls & _ & _ & Hl' & Hlog).
      rewrite drop_leaves, Hl' in *.
      replace (map reset pre ++ reset lg :: post) with (map reset (pre ++ [lg]) ++ post)
        in * by (rewrite map_app, <- app_assoc; reflexivity).
      rewrite drop_list_app, drop_list_resets in * by discriminate.
      pose proof (drop_list_ok post Panicking l2 ltac:(discriminate)) as Hd.
      destruct (drop_list post Panicking l2) as [[| |] l3]; simpl in *;
        try (exfalso; apply (Hna l3); reflexivity);
        rewrite Hd, Hlog, Hls;
        replace (pre ++ lg :: post) with ((pre ++ [lg]) ++ post)
          by (rewrite <- app_assoc; reflexivity);
        rewrite !map_app, !invoke_each_once_app; reflexivity.
  - pose proof (drop_leaves (GTuple live) Panicking l1) as Hdl. simpl in Hdl.
    rewrite Hdl in *.
    pose proof (drop_list_ok (flat_map leaves live) Panicking l1 ltac:(discriminate)) as Hd.
    destruct (drop_list (flat_map leaves live) Panicking l1) as [[| |] l2]; simpl in *;
      try (exfalso; apply (Hna l2); reflexivity); exact Hd.
Qed.

Lemma Forall_nonpanicking_split : forall pre lg post,
  Forall nonpanicking (map handler (pre ++ lg :: post)) ->
  fst (call (handler lg) []) = RPanic -> False.
Proof.
  intros pre lg post Hnp Hlg. rewrite map_app in Hnp. apply Forall_app in Hnp.
  destruct Hnp as [_ Hnp]. inversion Hnp as [|? ? H _]. unfold nonpanicking in H. congruence.
Qed.

(** When the body returns and no final handler unwinds, [scope] returns the
    body's result after one invocation of each final handler in order. *)
Lemma scope_return_eq : forall O t (body : Guards -> list nat -> BodyResult O) log0 g out l,
  body (new t) log0 = BReturn g out l ->
  Forall nonpanicking (map handler (leaves g)) ->
  scope t body log0 = SReturn out (invoke_each_once (map handler (leaves g)) l).
Proof.
  intros O t body log0 g out l Hb Hnp. unfold scope. rewrite Hb.
  pose proof (call_all_leaves g l) as Hc.
  destruct (call_all g l) as [[g' r] l2].
  pose proof (call_all_list_ok (leaves g) l) as Hok. rewrite Hc in Hok.
  destruct r.
  - destruct Hok as (Hl' & Hlog & _).
    rewrite drop_leaves, Hl', drop_list_resets by discriminate. rewrite Hlog. reflexivity.
  - destruct Hok as (pre & lg & post & Hls & _ & Hlg & _).
    rewrite Hls in Hnp. exfalso. exact (Forall_nonpanicking_split _ _ _ Hnp Hlg).
Qed.

Lemma resets_empty : forall ls,
  Forall (fun lg => handler lg = none (lsg_ty lg)) (map reset ls).
Proof. induction ls; constructor; [reflexivity|assumption]. Qed.

(** The idle guards built by [LocalScopeGuards::new]. *)
Lemma new_idle : forall t, Forall (fun lg => handler lg = none (lsg_ty lg)) (leaves (new t)).
Proof.
  fix IH 1. intros [h|ts]; simpl.
  - constructor; [reflexivity|constructor].
  - induction ts as [|t ts IHts]; simpl; [constructor|].
    apply Forall_app. split; [apply IH|exact IHts].
Qed.

(** ** C1: every handler a guard holds when the body ends runs exactly once *)

(** C1 (amended): unless the process aborts, the log of a [scope] call is the
    body's log followed by one invocation of each handler held by the guards
    when the body finished (returned or unwound), in positional order: each
    such handler is invoked exactly once, and no other handler is invoked. *)
Theorem scope_invokes_final_handlers_once :
  forall O t (body : Guards -> list nat -> BodyResult O) log0,
  (forall l, scope t body log0 <> SAbort l) ->
  scope_log (scope t body log0) =
  invoke_each_once (map handler (final_guards (body (new t) log0)))
    (body_log (body (new t) log0)).
Proof. exact scope_log_eq. Qed.

(** Witness for C1: a body that arms its guard and then unwinds. *)
Lemma scope_invokes_final_handlers_once_witness :
  (forall l, scope (TGuard TOpt) body_set_then_panic [] <> SAbort l) /\
  scope_log (scope (TGuard TOpt) body_set_then_panic []) = [cid log_A].
Proof.
  assert (Hna : forall l, scope (TGuard TOpt) body_set_then_panic [] <> SAbort l)
    by (intros l H; vm_compute in H; discriminate H).
  split; [exact Hna|].
  rewrite (scope_invokes_final_handlers_once unit (TGuard TOpt) body_set_then_panic [] Hna).
  vm_compute. reflexivity.
Defined.

(** C1 counterexample: a handler assigned to the guard and then replaced by
    another assignment is never invoked (its identifier 1 is not in the log). *)
Lemma scope_replaced_handler_never_runs :
  scope (TGuard TOpt) body_reassign [] = SReturn tt [cid log_B] /\
  count_occ Nat.eq_dec (scope_log (scope (TGuard TOpt) body_reassign [])) (cid log_A) = 0.
Proof. split; vm_compute; reflexivity. Qed.

(** ** C2: construction, sweep order and result *)

(** C2 (amended): [scope] builds idle guards; when the body returns a
    collection whose handlers do not unwind, [scope] invokes them once each in
    the positional order of that returned collection (construction order when
    the body keeps each guard in place; the order of the assignments plays no
    part) and returns the body's result. *)
Theorem scope_returns_after_positional_sweep :
  forall O t (body : Guards -> list nat -> BodyResult O) log0 g out l,
  body (new t) log0 = BReturn g out l ->
  Forall nonpanicking (map handler (leaves g)) ->
  Forall (fun lg => handler lg = none (lsg_ty lg)) (leaves (new t)) /\
  scope t body log0 = SReturn out (invoke_each_once (map handler (leaves g)) l).
Proof.
  intros O t body log0 g out l Hb Hnp. split.
  - apply new_idle.
  - exact (scope_return_eq O t body log0 g out l Hb Hnp).
Qed.

(** Witness for C2: the log is ["A"; "B"] whichever guard is assigned first. *)
Lemma scope_returns_after_positional_sweep_witness :
  scope two_guards body_A_then_B [] = SReturn tt [cid log_A; cid log_B] /\
  scope two_guards body_B_then_A [] = SReturn tt [cid log_A; cid log_B].
Proof.
  split.
  - rewrite (proj2 (scope_returns_after_positional_sweep unit two_guards body_A_then_B []
             (GTuple [GGuard (mkLocal TOpt (HOpt (Some log_A)));
                      GGuard (mkLocal TOpt (HOpt (Some log_B)))]) tt []
             ltac:(reflexivity) ltac:(repeat constructor))).
    vm_compute. reflexivity.
  - rewrite (proj2 (scope_returns_after_positional_sweep unit two_guards body_B_then_A []
             (GTuple [GGuard (mkLocal TOpt (HOpt (Some log_A)));
                      GGuard (mkLocal TOpt (HOpt (Some log_B)))]) tt []
             ltac:(reflexivity) ltac:(repeat constructor))).
    vm_compute. reflexivity.
Defined.

(** C2 counterexample: the first-built guard is armed with "A" and the second
    with "B", and the body returns them swapped: the sweep logs ["B"; "A"],
    not construction order. *)
Lemma scope_swapped_guards_not_construction_order :
  scope two_guards body_swap [] = SReturn tt [cid log_B; cid log_A].
Proof. vm_compute. reflexivity. Qed.

(** ** C3: finalizing a guard empties its slot *)

(** C3: [ScopeGuardPriv::call] on a guard holding [h] behaves as [h.call()]
    and leaves [H::none()] in the slot, also when [h] unwinds; a further call
    (with no assignment in between) returns without effect, and so does the
    call on a guard that never received a handler. *)
Theorem priv_call_empties_slot : forall t h log,
  let '(lg', r, log') := priv_call (mkLocal t h) log in
  lg' = mkLocal t (none t) /\ (r, log') = call h log /\
  (forall l, priv_call lg' l = (lg', ROk, l)) /\
  (forall l, priv_call (priv_new t : LocalScopeGuard) l = (priv_new t, ROk, l)).
Proof.
  intros t h log. cbn [priv_call LocalScopeGuard_priv]. rewrite local_call_eq. cbn.
  repeat split.
  - destruct (call h log); reflexivity.
  - intros l. cbn. rewrite local_call_eq. cbn. rewrite call_none. reflexivity.
  - intros l. cbn. rewrite local_call_eq. cbn. rewrite call_none. reflexivity.
Qed.

(** ** C4: assignment replaces *)

(** C4: [set_handler] on a local guard stores the new handler and nothing
    else (it has no effect on the log); finalizing afterwards runs only the
    newest handler, whatever was assigned before. *)
Theorem set_handler_replaces : forall (lg : LocalScopeGuard) h_old h_new log,
  set_handler lg h_new = mkLocal (lsg_ty lg) h_new /\
  priv_call (set_handler (set_handler lg h_old) h_new) log =
    (reset lg, fst (call h_new log), snd (call h_new log)).
Proof.
  intros [t h] h_old h_new log. split; [reflexivity|].
  cbn. rewrite local_call_eq. reflexivity.
Qed.

(** ** C5: tuple handlers *)

(** C5 (amended): the empty tuple handler is the tuple of empty handlers;
    calling a tuple handler invokes its elements once each in order, empty or
    not, as long as none unwinds; when an element unwinds, the call unwinds
    after it and the later elements are not invoked. *)
Theorem tuple_handler_calls_in_order : forall ts hs log,
  none (TTup ts) = HTup (map none ts) /\
  (Forall nonpanicking hs -> call (HTup hs) log = (ROk, invoke_each_once hs log)) /\
  (forall pre h post, hs = pre ++ h :: post -> Forall nonpanicking pre ->
     fst (call h []) = RPanic ->
     call (HTup hs) log = (RPanic, invoke_each_once (pre ++ [h]) log)).
Proof.
  intros ts hs log. split; [reflexivity|]. split.
  - intros Hnp. cbn [call]. revert log. induction Hnp as [|h hs Hh Hhs IH]; intros log;
      [reflexivity|].
    unfold nonpanicking in Hh. rewrite invoke_each_once_cons, (call_log h log), Hh.
    apply IH.
  - intros pre h post -> Hpre Hh. cbn [call]. revert log.
    induction Hpre as [|h0 pre Hh0 Hpre IH]; intros log.
    + cbn [app]. rewrite invoke_each_once_cons, (call_log h log), Hh. reflexivity.
    + unfold nonpanicking in Hh0. cbn [app].
      rewrite invoke_each_once_cons, (call_log h0 log), Hh0. apply IH.
Qed.

(** Witness for C5: an empty first element does not prevent the later ones. *)
Lemma tuple_handler_calls_in_order_witness :
  call (HTup [HOpt None; HOpt (Some log_A); HOpt (Some log_B)]) [] = (ROk, [1; 2]).
Proof.
  rewrite (proj1 (proj2 (tuple_handler_calls_in_order []
             [HOpt None; HOpt (Some log_A); HOpt (Some log_B)] []))
             ltac:(repeat constructor)).
  vm_compute. reflexivity.
Defined.

(** C5 counterexample: in [(Some(C), Some(A))], [C] unwinds and [A] is never
    invoked. *)
Lemma tuple_handler_unwinding_element_skips_rest :
  call (HTup [HOpt (Some fail_C); HOpt (Some log_A)]) [] = (RPanic, [cid fail_C]).
Proof. vm_compute. reflexivity. Qed.

(** ** C7: the ['static] guard *)

(** C7: [StaticScopeGuard] has no handler slot: [handler_mut] returns [None],
    [set_handler] leaves the guard unchanged whatever the handler, and its
    [ScopeGuardPriv::call] does nothing. *)
Theorem static_guard_noop : forall (g : StaticScopeGuard) h log,
  handler_mut g = None /\ set_handler g h = g /\ priv_call g log = (g, ROk, log).
Proof. intros g h log. repeat split. Qed.

(** ** C6: an unwinding handler in the sweep does not stop the others *)

(** C6: when the body returns and some guard's handler unwinds during
    [call_all], the sweep stops at the first such guard [lg]; the unwind then
    drops the collection, which invokes the handlers of all later guards, so
    if the unwind leaves [scope] its log holds one invocation of every final
    handler, in order.  The process aborts instead only if a later handler
    also unwinds (a panic during unwinding). *)
Theorem scope_sweep_failure_finalizes_rest :
  forall O t (body : Guards -> list nat -> BodyResult O) log0 g out l,
  body (new t) log0 = BReturn g out l ->
  ~ Forall nonpanicking (map handler (leaves g)) ->
  exists pre lg post,
    leaves g = pre ++ lg :: post /\ Forall nonpanicking (map handler pre) /\
    fst (call (handler lg) []) = RPanic /\
    match scope t body log0 with
    | SReturn _ _ => False
    | SUnwind l' => l' = invoke_each_once (map handler (leaves g)) l
    | SAbort _ => ~ Forall nonpanicking (map handler post)
    end.
Proof.
  intros O t body log0 g out l Hb Hnp. unfold scope. rewrite Hb.
  pose proof (call_all_leaves g l) as Hc.
  destruct (call_all g l) as [[g' r] l2].
  pose proof (call_all_list_ok (leaves g) l) as Hok. rewrite Hc in Hok.
  destruct r.
  - destruct Hok as (_ & _ & Hall). contradiction.
  - destruct Hok as (pre & lg & post & Hls & Hpre & Hlg & Hl' & Hlog).
    exists pre, lg, post. repeat split; try assumption.
    rewrite drop_leaves, Hl'.
    replace (map reset pre ++ reset lg :: post) with (map reset (pre ++ [lg]) ++ post)
      by (rewrite map_app, <- app_assoc; reflexivity).
    rewrite drop_list_app, drop_list_resets by discriminate.
    pose proof (drop_list_ok post Panicking l2 ltac:(discriminate)) as Hd.
    destruct (drop_list post Panicking l2) as [[| |] l3] eqn:Ed; simpl.
    + rewrite Hd, Hlog, Hls.
      replace (pre ++ lg :: post) with ((pre ++ [lg]) ++ post)
        by (rewrite <- app_assoc; reflexivity).
      rewrite !map_app, !invoke_each_once_app. reflexivity.
    + rewrite Hd, Hlog, Hls.
      replace (pre ++ lg :: post) with ((pre ++ [lg]) ++ post)
        by (rewrite <- app_assoc; reflexivity).
      rewrite !map_app, !invoke_each_once_app. reflexivity.
    + intros Hpost. rewrite drop_list_nonpanicking in Ed by (auto; discriminate).
      discriminate Ed.
Qed.

(** Witness for C6: the first of three guards fails, the other two still run. *)
Lemma scope_sweep_failure_finalizes_rest_witness :
  scope three_guards body_first_fails [] = SUnwind [cid fail_C; cid log_A; cid log_B].
Proof.
  destruct (scope_sweep_failure_finalizes_rest unit three_guards body_first_fails []
              (GTuple [GGuard (mkLocal TOpt (HOpt (Some fail_C)));
                       GGuard (mkLocal TOpt (HOpt (Some log_A)));
                       GGuard (mkLocal TOpt (HOpt (Some log_B)))]) tt []
              ltac:(reflexivity)
              ltac:(intros H; inversion H as [|? ? Hc _]; vm_compute in Hc; discriminate Hc))
    as (pre & lg & post & _ & _ & _ & _).
  reflexivity.
Defined.

(** ** C8: [Dma::stop] *)

(** C8 (as the code stands): [Dma::stop] stores [Some(|| println!("stop DMA"))]
    in the guard again instead of clearing it, so finalizing the guard after
    [stop] prints "stop DMA"; in [usage1] the scope ends with that output. *)
Theorem dma_stop_rearms_handler :
  (forall (g : LocalScopeGuard) (d : Dma Off) data,
     let '(_, _, g') := stop (start d data g) in
     handler g' = HOpt (Some stop_dma) /\
     priv_call g' [] = (reset g, ROk, [cid stop_dma])) /\
  scope two_guards (usage1_body (mkDma MkOff)) [] = SReturn (mkDma MkOff) [cid stop_dma].
Proof.
  split.
  - intros [t h] d data. cbn. split; [reflexivity|]. rewrite local_call_eq. reflexivity.
  - vm_compute. reflexivity.
Qed.

(** ** C9: the drop after the sweep invokes nothing *)

(** C9: [ScopeGuardPriv::call] always leaves [H::none()] in the slot; hence,
    after a [call_all] that returns, every guard of the collection is empty
    and dropping the collection (as [scope] does when it returns) invokes no
    handler and changes nothing. *)
Theorem call_all_then_drop_invokes_nothing : forall g log g' log',
  call_all g log = (g', ROk, log') ->
  (forall lg l, handler (fst (fst (priv_call lg l))) = none (lsg_ty lg)) /\
  Forall (fun lg => handler lg = none (lsg_ty lg)) (leaves g') /\
  (forall st l, st <> Aborted -> drop g' st l = (st, l)).
Proof.
  intros g log g' log' Hc. split.
  - intros lg l. cbn. rewrite local_call_eq. reflexivity.
  - pose proof (call_all_leaves g log) as Hl. rewrite Hc in Hl.
    pose proof (call_all_list_ok (leaves g) log) as Hok. rewrite Hl in Hok.
    destruct Hok as (Hl' & _ & _). rewrite Hl'. split.
    + apply resets_empty.
    + intros st l Hst. rewrite drop_leaves, Hl'. apply drop_list_resets. exact Hst.
Qed.

(** Witness for C9: one armed guard, swept and then dropped. *)
Lemma call_all_then_drop_invokes_nothing_witness :
  drop (GTuple [GGuard (mkLocal TOpt (HOpt None))]) Normal [cid log_A] =
  (Normal, [cid log_A]).
Proof.
  apply (proj2 (proj2 (call_all_then_drop_invokes_nothing
           (GTuple [GGuard (mkLocal TOpt (HOpt (Some log_A)))]) []
           (GTuple [GGuard (mkLocal TOpt (HOpt None))]) [cid log_A]
           ltac:(vm_compute; reflexivity)))).
  discriminate.
Defined.

(** ** C10: the sweep visits the collection the body returned *)

(** C10: [scope] sweeps the collection returned by the body, not the one it
    built: unless the process aborts, the handlers are invoked in the
    positions the body returned the guards in. *)
Theorem scope_sweeps_returned_collection :
  forall O t (body : Guards -> list nat -> BodyResult O) log0 g out l,
  body (new t) log0 = BReturn g out l ->
  (forall l', scope t body log0 <> SAbort l') ->
  scope_log (scope t body log0) = invoke_each_once (map handler (leaves g)) l.
Proof.
  intros O t body log0 g out l Hb Hna.
  pose proof (scope_log_eq O t body log0 Hna) as H. rewrite Hb in H. exact H.
Qed.

(** Witness for C10: the body returns the two guards swapped. *)
Lemma scope_sweeps_returned_collection_witness :
  scope_log (scope two_guards body_swap []) = [cid log_B; cid log_A].
Proof.
  rewrite (scope_sweeps_returned_collection unit two_guards body_swap []
             (GTuple [GGuard (mkLocal TOpt (HOpt (Some log_B)));
                      GGuard (mkLocal TOpt (HOpt (Some log_A)))]) tt []
             ltac:(reflexivity)
             ltac:(intros l' H; vm_compute in H; discriminate H)).
  vm_compute. reflexivity.
Defined.

(** * Further properties of the code *)

Lemma empty_guards_invoke : forall ls log,
  Forall (fun lg => handler lg = none (lsg_ty lg)) ls ->
  Forall nonpanicking (map handler ls) /\ invoke_each_once (map handler ls) log = log.
Proof.
  induction ls as [|lg ls IH]; intros log Hall; [split; [constructor|reflexivity]|].
  inversion Hall as [|? ? Hlg Hls]; subst.
  destruct (IH (snd (call (handler lg) log)) Hls) as [Hnp Hinv].
  split.
  - constructor; [|exact Hnp]. unfold nonpanicking. rewrite Hlg, call_none. reflexivity.
  - rewrite map_cons, invoke_each_once_cons, Hlg, call_none. simpl.
    rewrite Hlg, call_none in Hinv. exact (proj2 (IH log Hls)).
Qed.

Lemma call_all_empty : forall g log,
  Forall (fun lg => handler lg = none (lsg_ty lg)) (leaves g) ->
  call_all g log = (g, ROk, log).
Proof.
  induction g as [lg|gs Hgs] using Guards_ind'; intros log Hall.
  - inversion Hall as [|? ? Hlg _]; subst. destruct lg as [t h]. simpl in Hlg. subst h.
    simpl. rewrite local_call_eq. simpl. rewrite call_none. reflexivity.
  - simpl in *. revert log.
    induction Hgs as [|g gs Hg Hgs IH]; intros log; [reflexivity|].
    simpl in Hall. apply Forall_app in Hall. destruct Hall as [Hg1 Hgs1].
    rewrite (Hg log Hg1). specialize (IH Hgs1 log).
    destruct ((fix call_elems (gs : list Guards) (log : list nat)
                 : list Guards * res * list nat :=
                 match gs with
                 | [] => ([], ROk, log)
                 | g1 :: gs1 =>
                     match call_all g1 log with
                     | (g1', ROk, log1) =>
                         let '(gs1', r, log2) := call_elems gs1 log1 in
                         (g1' :: gs1', r, log2)
                     | (g1', RPanic, log1) => (g1' :: gs1, RPanic, log1)
                     end
                 end) gs log) as [[gs' r] l'].
    injection IH as -> -> ->. reflexivity.
Qed.

(** X1: [H::none()] of every handler type, tuples nested to any depth
    included, is a no-op when called: it logs nothing and does not unwind. *)
Theorem none_call_is_noop : forall t log, call (none t) log = (ROk, log).
Proof. exact call_none. Qed.

(** X2: [call_all] is idempotent: once a sweep has returned, sweeping the
    collection again changes nothing and invokes no handler. *)
Theorem call_all_idempotent : forall g log g' log',
  call_all g log = (g', ROk, log') -> forall l, call_all g' l = (g', ROk, l).
Proof.
  intros g log g' log' Hc l. apply call_all_empty.
  pose proof (call_all_leaves g log) as Hl. rewrite Hc in Hl.
  pose proof (call_all_list_ok (leaves g) log) as Hok. rewrite Hl in Hok.
  destruct Hok as (-> & _ & _). apply resets_empty.
Qed.

Lemma call_all_idempotent_witness :
  call_all (GTuple [GGuard (mkLocal TOpt (HOpt None))]) [7] =
  (GTuple [GGuard (mkLocal TOpt (HOpt None))], ROk, [7]).
Proof.
  apply (call_all_idempotent (GTuple [GGuard (mkLocal TOpt (HOpt (Some log_A)))]) []
           (GTuple [GGuard (mkLocal TOpt (HOpt None))]) [cid log_A]).
  vm_compute. reflexivity.
Defined.

(** X3: when [call_all] unwinds, it stopped at the first guard [lg] whose
    handler unwinds: the handlers before it and its own ran once, in order;
    those guards are now empty, and every later guard keeps its handler. *)
Theorem call_all_unwind_state : forall g log g' log',
  call_all g log = (g', RPanic, log') ->
  exists pre lg post,
    leaves g = pre ++ lg :: post /\ Forall nonpanicking (map handler pre) /\
    fst (call (handler lg) []) = RPanic /\
    leaves g' = map reset pre ++ reset lg :: post /\
    log' = invoke_each_once (map handler (pre ++ [lg])) log.
Proof.
  intros g log g' log' Hc.
  pose proof (call_all_leaves g log) as Hl. rewrite Hc in Hl.
  pose proof (call_all_list_ok (leaves g) log) as Hok. rewrite Hl in Hok. exact Hok.
Qed.

Lemma call_all_unwind_state_witness :
  exists pre lg post,
    leaves (GTuple [GGuard (mkLocal TOpt (HOpt (Some fail_C)));
                    GGuard (mkLocal TOpt (HOpt (Some log_A)))]) = pre ++ lg :: post /\
    Forall nonpanicking (map handler pre) /\ fst (call (handler lg) []) = RPanic /\
    leaves (GTuple [GGuard (mkLocal TOpt (HOpt None));
                    GGuard (mkLocal TOpt (HOpt (Some log_A)))]) =
      map reset pre ++ reset lg :: post /\
    [cid fail_C] = invoke_each_once (map handler (pre ++ [lg])) [].
Proof.
  apply (call_all_unwind_state
           (GTuple [GGuard (mkLocal TOpt (HOpt (Some fail_C)));
                    GGuard (mkLocal TOpt (HOpt (Some log_A)))]) []).
  vm_compute. reflexivity.
Defined.

(** X4: a body that hands the fresh guards back without assigning any
    handler makes [scope] return its result with no handler invoked. *)
Theorem scope_idle_body_invokes_nothing : forall O t (out : O) log,
  scope t (fun g l => BReturn g out l) log = SReturn out log.
Proof.
  intros O t out log.
  destruct (empty_guards_invoke (leaves (new t)) log (new_idle t)) as [Hnp Hinv].
  rewrite (scope_return_eq O t (fun g l => BReturn g out l) log (new t) out log
             eq_refl Hnp).
  rewrite Hinv. reflexivity.
Qed.

(** X5: when the body unwinds and none of the handlers of the guards it
    still owns unwinds, the unwind leaves [scope] after each of those handlers
    ran once, in the order the body's frame drops the guards. *)
Theorem scope_body_unwind_runs_live_handlers :
  forall O t (body : Guards -> list nat -> BodyResult O) log0 live l,
  body (new t) log0 = BUnwind live l ->
  Forall nonpanicking (map handler (flat_map leaves live)) ->
  scope t body log0 = SUnwind (invoke_each_once (map handler (flat_map leaves live)) l).
Proof.
  intros O t body log0 live l Hb Hnp. unfold scope. rewrite Hb.
  rewrite drop_leaves. change (leaves (GTuple live)) with (flat_map leaves live).
  rewrite drop_list_nonpanicking by (auto; discriminate). reflexivity.
Qed.

Lemma scope_body_unwind_runs_live_handlers_witness :
  scope (TGuard TOpt) body_set_then_panic [] = SUnwind [cid log_A].
Proof.
  rewrite (scope_body_unwind_runs_live_handlers unit (TGuard TOpt) body_set_then_panic []
             [GGuard (mkLocal TOpt (HOpt (Some log_A)))] [] ltac:(reflexivity)
             ltac:(repeat constructor)).
  vm_compute. reflexivity.
Defined.

(** X6: [scope] returns a value only when the body returned it and none of
    the handlers of the returned guards unwound; the log is then one
    invocation of each of them, in order. *)
Theorem scope_return_inversion :
  forall O t (body : Guards -> list nat -> BodyResult O) log0 out l',
  scope t body log0 = SReturn out l' ->
  exists g l, body (new t) log0 = BReturn g out l /\
    Forall nonpanicking (map handler (leaves g)) /\
    l' = invoke_each_once (map handler (leaves g)) l.
Proof.
  intros O t body log0 out l' Hs. unfold scope in Hs.
  destruct (body (new t) log0) as [g o l|live l] eqn:Hb.
  - pose proof (call_all_leaves g l) as Hc.
    destruct (call_all g l) as [[g' r] l2].
    pose proof (call_all_list_ok (leaves g) l) as Hok. rewrite Hc in Hok.
    destruct r.
    + destruct Hok as (Hl' & Hlog & Hnp).
      rewrite drop_leaves, Hl', drop_list_resets in Hs by discriminate.
      injection Hs as <- <-. exists g, l. auto.
    + destruct (drop g' Panicking l2) as [[| |] l3]; discriminate Hs.
  - destruct (drop (GTuple live) Panicking l) as [[| |] l3]; discriminate Hs.
Qed.

Lemma scope_return_inversion_witness :
  exists g l, body_A_then_B (new two_guards) [] = BReturn g tt l /\
    Forall nonpanicking (map handler (leaves g)) /\
    [cid log_A; cid log_B] = invoke_each_once (map handler (leaves g)) l.
Proof.
  apply (scope_return_inversion unit two_guards body_A_then_B [] tt).
  vm_compute. reflexivity.
Defined.

Lemma nest_pat_fold : forall gs acc,
  nest_pat (fold_left nest_step gs acc) = option_map (fun l => l ++ gs) (nest_pat acc).
Proof.
  induction gs as [|lg gs IH]; intros acc; simpl.
  - destruct (nest_pat acc); simpl; [rewrite app_nil_r|]; reflexivity.
  - rewrite IH. simpl. destruct (nest_pat acc); simpl; [rewrite <- app_assoc|]; reflexivity.
Qed.

Lemma leaves_fold : forall gs acc,
  leaves (fold_left nest_step gs acc) = leaves acc ++ gs.
Proof.
  induction gs as [|lg gs IH]; intros acc; simpl; [rewrite app_nil_r; reflexivity|].
  rewrite IH. simpl. rewrite ?app_nil_r, <- app_assoc. reflexivity.
Qed.

Lemma new_fold : forall ts acc,
  new (fold_left nest_step_ty ts acc) = fold_left nest_step (map priv_new ts) (new acc).
Proof. induction ts as [|t ts IH]; intros acc; simpl; [reflexivity|]. apply IH. Qed.

Lemma nest_expr_pat : forall g0 gs, nest_pat (nest_expr g0 gs) = Some (g0 :: gs).
Proof. intros g0 gs. unfold nest_expr. rewrite nest_pat_fold. reflexivity. Qed.

Lemma new_nest_type : forall t0 ts,
  new (nest_type t0 ts) = nest_expr (priv_new t0) (map priv_new ts).
Proof. intros t0 ts. unfold nest_type, nest_expr. rewrite new_fold. reflexivity. Qed.

(** X7: the nested tuple built by [scope!]'s [@nest_expr] from the guards
    [a1, ..., an] is taken apart by its [@nest_pat] into the same guards in the
    same order, and its guards in positional order are [a1, ..., an]. *)
Theorem nest_expr_round_trip : forall g0 gs,
  nest_pat (nest_expr g0 gs) = Some (g0 :: gs) /\ leaves (nest_expr g0 gs) = g0 :: gs.
Proof.
  intros g0 gs. split; [apply nest_expr_pat|].
  unfold nest_expr. rewrite leaves_fold. reflexivity.
Qed.

(** X8: the collection [scope] builds at the type [scope!] writes out for
    [|(a1, ..., an)|] binds one idle guard to each argument, in order. *)
Theorem scope_macro_new_binds_idle_guards : forall t0 ts,
  nest_pat (new (nest_type t0 ts)) =
  Some (map (fun t => mkLocal t (none t)) (t0 :: ts)).
Proof. intros t0 ts. rewrite new_nest_type, nest_expr_pat. reflexivity. Qed.






